(** * libsandbox: the configuration builder and the argument compiler

    A shallow embedding of [sandbox.go].  The [Sandbox] value behind the
    pointer receiver is the state of a state monad: every method of the Go
    package is a computation over that state, so that what a method reads
    and what it writes are both visible in its definition. *)

From Stdlib Require Import String Ascii List NArith Bool Lia.
From Stdlib Require Import Decimal DecimalFacts DecimalPos DecimalString DecimalN.
From ExtLib Require Import Structures.Monad Structures.MonadState.
From ExtLib Require Import Data.Monads.StateMonad.
Import ListNotations.
Import MonadNotation.

Local Open Scope string_scope.
Local Open Scope list_scope.
Local Open Scope monad_scope.

(** ** Go's [strconv.FormatUint] *)

Module strconv.

(** The digit table of package [strconv]. *)
Definition digits : string := "0123456789abcdefghijklmnopqrstuvwxyz".

Definition digit (d : N) : ascii :=
  match String.get (N.to_nat d) digits with
  | Some c => c
  | None => "0"%char
  end.

(** The general loop of [formatBits]: the least significant digit is
    written first, at the end of the buffer [a]. *)
Fixpoint formatBits (fuel : nat) (u b : N) (a : string) : string :=
  match fuel with
  | O => String (digit u) a
  | S fuel' =>
      if (b <=? u)%N then
        let q := (u / b)%N in
        formatBits fuel' q b (String (digit (u - q * b)) a)
      else String (digit u) a
  end.

(** One iteration per binary digit of [i] is enough for every base from
    2 on; a 64-bit value never needs more than the 64 of Go's buffer. *)
Definition FormatUint (i : N) (base : N) : string :=
  formatBits (S (N.to_nat (N.log2 i))) i base EmptyString.

End strconv.

(** ** The data model *)

Module file.
Record t := mk { src : string; dst : string; withLibs : bool }.
End file.

Module mountDir.
Record t := mk { src : string; dst : string }.
End mountDir.

(** [memLimit] is a [uint64] in Go; nothing in the package computes with
    it, so it is kept as a natural number. *)
Record Sandbox := mkSandbox {
  path : string;
  files : list file.t;
  mountDirs : list mountDir.t;
  env : list string;
  noNewNet : bool;
  cgroup : string;
  cpuSet : string;
  memLimit : N;
  saveUsageStat : string;
  execDir : string
}.

(** Assignments to one field of the receiver. *)
Definition with_files (v : list file.t) (s : Sandbox) : Sandbox :=
  mkSandbox (path s) v (mountDirs s) (env s) (noNewNet s) (cgroup s)
            (cpuSet s) (memLimit s) (saveUsageStat s) (execDir s).
Definition with_mountDirs (v : list mountDir.t) (s : Sandbox) : Sandbox :=
  mkSandbox (path s) (files s) v (env s) (noNewNet s) (cgroup s)
            (cpuSet s) (memLimit s) (saveUsageStat s) (execDir s).
Definition with_env (v : list string) (s : Sandbox) : Sandbox :=
  mkSandbox (path s) (files s) (mountDirs s) v (noNewNet s) (cgroup s)
            (cpuSet s) (memLimit s) (saveUsageStat s) (execDir s).
Definition with_noNewNet (v : bool) (s : Sandbox) : Sandbox :=
  mkSandbox (path s) (files s) (mountDirs s) (env s) v (cgroup s)
            (cpuSet s) (memLimit s) (saveUsageStat s) (execDir s).
Definition with_cgroup (v : string) (s : Sandbox) : Sandbox :=
  mkSandbox (path s) (files s) (mountDirs s) (env s) (noNewNet s) v
            (cpuSet s) (memLimit s) (saveUsageStat s) (execDir s).
Definition with_cpuSet (v : string) (s : Sandbox) : Sandbox :=
  mkSandbox (path s) (files s) (mountDirs s) (env s) (noNewNet s) (cgroup s)
            v (memLimit s) (saveUsageStat s) (execDir s).
Definition with_memLimit (v : N) (s : Sandbox) : Sandbox :=
  mkSandbox (path s) (files s) (mountDirs s) (env s) (noNewNet s) (cgroup s)
            (cpuSet s) v (saveUsageStat s) (execDir s).
Definition with_saveUsageStat (v : string) (s : Sandbox) : Sandbox :=
  mkSandbox (path s) (files s) (mountDirs s) (env s) (noNewNet s) (cgroup s)
            (cpuSet s) (memLimit s) v (execDir s).
Definition with_execDir (v : string) (s : Sandbox) : Sandbox :=
  mkSandbox (path s) (files s) (mountDirs s) (env s) (noNewNet s) (cgroup s)
            (cpuSet s) (memLimit s) (saveUsageStat s) v.

(** A method with receiver [s *Sandbox]. *)
Definition method : Type -> Type := state Sandbox.

(** [s.f = v] *)
Definition assign {A : Type} (upd : A -> Sandbox -> Sandbox) (v : A) : method unit :=
  s <- get ;; put (upd v s).

(** ** The builder *)

(** [&Sandbox{path: path}]: every other field has its zero value. *)
Definition New (path : string) : Sandbox :=
  mkSandbox path [] [] [] false "" "" 0%N "" "".

Definition AddFile (src dst : string) (withLibs : bool) : method unit :=
  fs <- gets files ;;
  assign with_files (fs ++ [file.mk src dst withLibs]).

Definition MountDir (src dst : string) : method unit :=
  ds <- gets mountDirs ;;
  assign with_mountDirs (ds ++ [mountDir.mk src dst]).

Definition AddEnv (value : string) : method unit :=
  es <- gets env ;;
  assign with_env (es ++ [value]).

Definition SetNoNewNet (v : bool) : method unit := assign with_noNewNet v.
Definition SetCGroup (name : string) : method unit := assign with_cgroup name.
Definition SetCpuSet (set : string) : method unit := assign with_cpuSet set.
Definition SetMemLimit (limit : N) : method unit := assign with_memLimit limit.
Definition SaveUsageStat (filename : string) : method unit :=
  assign with_saveUsageStat filename.
Definition ExecDir (dir : string) : method unit := assign with_execDir dir.

(** ** The argument compiler *)

(** [s != ""] *)
Definition nonempty (s : string) : bool :=
  match s with EmptyString => false | String _ _ => true end.

(** The body of the loop over [s.files]. *)
Definition addFileArgs (execArgs : list string) (f : file.t) : list string :=
  let execArgs :=
    if file.withLibs f then execArgs ++ ["--add_elf_file"]
    else execArgs ++ ["--add_file"] in
  execArgs ++ [file.src f; file.dst f].

Definition addMountDirArgs (execArgs : list string) (d : mountDir.t) : list string :=
  execArgs ++ ["--mount_dir"; mountDir.src d; mountDir.dst d].

Definition addEnvArgs (execArgs : list string) (e : string) : list string :=
  execArgs ++ ["--env"; e].

Definition BuildExecArgs (path0 : string) (args : list string) : method (list string) :=
  root <- gets path ;;
  let execArgs := [root] in
  fs <- gets files ;;
  let execArgs := fold_left addFileArgs fs execArgs in
  ds <- gets mountDirs ;;
  let execArgs := fold_left addMountDirArgs ds execArgs in
  es <- gets env ;;
  let execArgs := fold_left addEnvArgs es execArgs in
  nn <- gets noNewNet ;;
  let execArgs := if nn then execArgs ++ ["--no_new_net"] else execArgs in
  cg <- gets cgroup ;;
  let execArgs := if nonempty cg then execArgs ++ ["--cgroup"; cg] else execArgs in
  cs <- gets cpuSet ;;
  let execArgs := if nonempty cs then execArgs ++ ["--cpuset"; cs] else execArgs in
  ml <- gets memLimit ;;
  let execArgs :=
    if negb (ml =? 0)%N
    then execArgs ++ ["--mem_limit"; strconv.FormatUint ml 10]
    else execArgs in
  us <- gets saveUsageStat ;;
  let execArgs :=
    if nonempty us then execArgs ++ ["--save_usage_stat"; us] else execArgs in
  ed <- gets execDir ;;
  let execArgs := if nonempty ed then execArgs ++ ["--exec_dir"; ed] else execArgs in
  let execArgs := execArgs ++ ["--"; path0] in
  let execArgs := execArgs ++ args in
  ret execArgs.

(** ** Process invocation *)

(** Package [os/exec], as far as this package uses it.  [Context] stands
    for the non-nil values of [context.Context]; the nil interface value
    is [None].  What [exec.Command] asks of the host system, the last
    element of a path and the search for a bare command name, is a
    [Host]. *)
Module exec.

(** [Base] is [filepath.Base]; [LookPath] returns the resolved path
    (empty if there is none) and the error, if any. *)
Record Host := mkHost {
  Base : string -> string;
  LookPath : string -> string * option string
}.

Record Cmd (Context : Type) := mkCmd {
  Path : string;
  Args : list string;
  ctx : option Context;
  Err : option string
}.
Arguments mkCmd {Context}.
Arguments Path {Context}.
Arguments Args {Context}.
Arguments ctx {Context}.
Arguments Err {Context}.

(** What calling a spawn primitive yields: a command, or a panic. *)
Inductive outcome (Context : Type) :=
| Returns (c : Cmd Context)
| Panics (msg : string).
Arguments Returns {Context}.
Arguments Panics {Context}.

(** The command [exec.Command] builds: the name and the arguments as
    given; for a name that is its own last element the path found by
    [LookPath], if any, replaces the name in [Path], and a failed search
    is kept in [Err]. *)
Definition newCmd {Context : Type} (host : Host) (name : string)
    (arg : list string) : Cmd Context :=
  let cmd := mkCmd name (name :: arg) None None in
  if String.eqb (Base host name) name then
    let (lp, err) := LookPath host name in
    let cmd := if nonempty lp then mkCmd lp (Args cmd) (ctx cmd) (Err cmd)
               else cmd in
    match err with
    | Some e => mkCmd (Path cmd) (Args cmd) (ctx cmd) (Some e)
    | None => cmd
    end
  else cmd.

Definition Command {Context : Type} (host : Host) (name : string)
    (arg : list string) : outcome Context :=
  Returns (newCmd host name arg).

Definition CommandContext {Context : Type} (host : Host)
    (ctx : option Context) (name : string) (arg : list string)
  : outcome Context :=
  match ctx with
  | None => Panics "nil Context"
  | Some _ =>
      let cmd : Cmd Context := newCmd host name arg in
      Returns (mkCmd (Path cmd) (Args cmd) ctx (Err cmd))
  end.

End exec.

(** The default of the package variable [Path]. *)
Definition DefaultPath : string := "/usr/bin/sandbox".

(** [Path] is the value of the package variable when the method runs. *)
Definition CommandContext {Context : Type} (host : exec.Host) (Path : string)
    (ctx : option Context) (path0 : string) (args : list string)
  : method (exec.outcome Context) :=
  execArgs <- BuildExecArgs path0 args ;;
  match ctx with
  | None => ret (exec.Command host Path execArgs)
  | Some _ => ret (exec.CommandContext host ctx Path execArgs)
  end.

Definition Command {Context : Type} (host : exec.Host) (Path : string)
    (path0 : string) (args : list string) : method (exec.outcome Context) :=
  CommandContext host Path None path0 args.

(** ** Sequences of builder calls *)

Inductive Call :=
| CallAddFile (src dst : string) (withLibs : bool)
| CallMountDir (src dst : string)
| CallAddEnv (value : string)
| CallSetNoNewNet (v : bool)
| CallSetCGroup (name : string)
| CallSetCpuSet (set : string)
| CallSetMemLimit (limit : N)
| CallSaveUsageStat (filename : string)
| CallExecDir (dir : string).

Definition call (c : Call) : method unit :=
  match c with
  | CallAddFile src dst withLibs => AddFile src dst withLibs
  | CallMountDir src dst => MountDir src dst
  | CallAddEnv value => AddEnv value
  | CallSetNoNewNet v => SetNoNewNet v
  | CallSetCGroup name => SetCGroup name
  | CallSetCpuSet set => SetCpuSet set
  | CallSetMemLimit limit => SetMemLimit limit
  | CallSaveUsageStat filename => SaveUsageStat filename
  | CallExecDir dir => ExecDir dir
  end.

(** A fluent chain [s.A(..).B(..)...]: the calls run in order on the one
    receiver. *)
Fixpoint chain (cs : list Call) : method unit :=
  match cs with
  | [] => ret tt
  | c :: cs' => call c ;; chain cs'
  end.

(** The receiver after the chain. *)
Definition configured (cs : list Call) (s : Sandbox) : Sandbox :=
  execState (chain cs) s.

(** The vector a call of [BuildExecArgs] returns. *)
Definition execArgsOf (s : Sandbox) (path0 : string) (args : list string)
  : list string :=
  evalState (BuildExecArgs path0 args) s.

(** The values passed to each method, in call order. *)
Definition addedFiles (cs : list Call) : list file.t :=
  flat_map (fun c => match c with
                     | CallAddFile src dst withLibs => [file.mk src dst withLibs]
                     | _ => [] end) cs.
Definition addedMountDirs (cs : list Call) : list mountDir.t :=
  flat_map (fun c => match c with
                     | CallMountDir src dst => [mountDir.mk src dst]
                     | _ => [] end) cs.
Definition addedEnv (cs : list Call) : list string :=
  flat_map (fun c => match c with CallAddEnv v => [v] | _ => [] end) cs.
Definition noNewNetWrites (cs : list Call) : list bool :=
  flat_map (fun c => match c with CallSetNoNewNet v => [v] | _ => [] end) cs.
Definition cgroupWrites (cs : list Call) : list string :=
  flat_map (fun c => match c with CallSetCGroup v => [v] | _ => [] end) cs.
Definition cpuSetWrites (cs : list Call) : list string :=
  flat_map (fun c => match c with CallSetCpuSet v => [v] | _ => [] end) cs.
Definition memLimitWrites (cs : list Call) : list N :=
  flat_map (fun c => match c with CallSetMemLimit v => [v] | _ => [] end) cs.
Definition saveUsageStatWrites (cs : list Call) : list string :=
  flat_map (fun c => match c with CallSaveUsageStat v => [v] | _ => [] end) cs.
Definition execDirWrites (cs : list Call) : list string :=
  flat_map (fun c => match c with CallExecDir v => [v] | _ => [] end) cs.

(** Two call sequences make the same calls of every scalar setter, in the
    same order for each setter, whatever the order between setters. *)
Definition sameSetterCalls (cs cs' : list Call) : Prop :=
  noNewNetWrites cs = noNewNetWrites cs' /\
  cgroupWrites cs = cgroupWrites cs' /\
  cpuSetWrites cs = cpuSetWrites cs' /\
  memLimitWrites cs = memLimitWrites cs' /\
  saveUsageStatWrites cs = saveUsageStatWrites cs' /\
  execDirWrites cs = execDirWrites cs'.

(** The scalar fields of a configuration. *)
Definition scalars (s : Sandbox) : bool * string * string * N * string * string :=
  (noNewNet s, cgroup s, cpuSet s, memLimit s, saveUsageStat s, execDir s).

(** ** The contract of the compiler, as the specification words it *)

(** The base-10 decimal string of a number. *)
Definition decimal (n : N) : string := NilEmpty.string_of_uint (N.to_uint n).

Definition fileTokens (f : file.t) : list string :=
  [if file.withLibs f then "--add_elf_file" else "--add_file";
   file.src f; file.dst f].
Definition mountDirTokens (d : mountDir.t) : list string :=
  ["--mount_dir"; mountDir.src d; mountDir.dst d].
Definition envTokens (e : string) : list string := ["--env"; e].
Definition noNewNetTokens (b : bool) : list string :=
  if b then ["--no_new_net"] else [].
(** A flag and its value, only if the value is not the empty string. *)
Definition optionTokens (flag v : string) : list string :=
  if string_dec v "" then [] else [flag; v].
Definition memLimitTokens (n : N) : list string :=
  if N.eq_dec n 0 then [] else ["--mem_limit"; decimal n].

(** Items 1 to 5 of the contract. *)
Definition listTokens (s : Sandbox) : list string :=
  [path s]
  ++ flat_map fileTokens (files s)
  ++ flat_map mountDirTokens (mountDirs s)
  ++ flat_map envTokens (env s)
  ++ noNewNetTokens (noNewNet s).

(** Items 11 to 13. *)
Definition requestTokens (path0 : string) (args : list string) : list string :=
  ["--"] ++ [path0] ++ args.

Definition compiled (s : Sandbox) (path0 : string) (args : list string)
  : list string :=
  listTokens s
  ++ optionTokens "--cgroup" (cgroup s)
  ++ optionTokens "--cpuset" (cpuSet s)
  ++ memLimitTokens (memLimit s)
  ++ optionTokens "--save_usage_stat" (saveUsageStat s)
  ++ optionTokens "--exec_dir" (execDir s)
  ++ requestTokens path0 args.

(** Every string the caller supplies that can reach the vector. *)
Definition callerStrings (s : Sandbox) (path0 : string) (args : list string)
  : list string :=
  [path s]
  ++ flat_map (fun f => [file.src f; file.dst f]) (files s)
  ++ flat_map (fun d => [mountDir.src d; mountDir.dst d]) (mountDirs s)
  ++ env s
  ++ [cgroup s; cpuSet s; saveUsageStat s; execDir s]
  ++ [path0] ++ args.

(** The separator invariant: one ["--"] in the vector, and it is the
    token before the program path. *)
Definition separators (l : list string) : nat := count_occ string_dec l "--".

Definition separatorOnce (out : list string) (path0 : string)
    (args : list string) : Prop :=
  separators out = 1 /\
  exists pre, out = pre ++ "--" :: path0 :: args.

(** ** The optional scalar fields *)

(** Items 6 to 10 of the contract, in its order. *)
Inductive optField :=
| Fcgroup | FcpuSet | FmemLimit | FsaveUsageStat | FexecDir.

Definition flagOf (f : optField) : string :=
  match f with
  | Fcgroup => "--cgroup"
  | FcpuSet => "--cpuset"
  | FmemLimit => "--mem_limit"
  | FsaveUsageStat => "--save_usage_stat"
  | FexecDir => "--exec_dir"
  end.

(** The field has its zero value: the empty string, or zero. *)
Definition atDefault (f : optField) (s : Sandbox) : Prop :=
  match f with
  | Fcgroup => cgroup s = ""
  | FcpuSet => cpuSet s = ""
  | FmemLimit => memLimit s = 0%N
  | FsaveUsageStat => saveUsageStat s = ""
  | FexecDir => execDir s = ""
  end.

(** The value token of the field. *)
Definition rendered (f : optField) (s : Sandbox) : string :=
  match f with
  | Fcgroup => cgroup s
  | FcpuSet => cpuSet s
  | FmemLimit => decimal (memLimit s)
  | FsaveUsageStat => saveUsageStat s
  | FexecDir => execDir s
  end.

Definition fieldTokens (s : Sandbox) (f : optField) : list string :=
  match f with
  | Fcgroup => optionTokens "--cgroup" (cgroup s)
  | FcpuSet => optionTokens "--cpuset" (cpuSet s)
  | FmemLimit => memLimitTokens (memLimit s)
  | FsaveUsageStat => optionTokens "--save_usage_stat" (saveUsageStat s)
  | FexecDir => optionTokens "--exec_dir" (execDir s)
  end.

(** The optional fields the contract lists before, and after, a field. *)
Definition earlier (f : optField) : list optField :=
  match f with
  | Fcgroup => []
  | FcpuSet => [Fcgroup]
  | FmemLimit => [Fcgroup; FcpuSet]
  | FsaveUsageStat => [Fcgroup; FcpuSet; FmemLimit]
  | FexecDir => [Fcgroup; FcpuSet; FmemLimit; FsaveUsageStat]
  end.

Definition later (f : optField) : list optField :=
  match f with
  | Fcgroup => [FcpuSet; FmemLimit; FsaveUsageStat; FexecDir]
  | FcpuSet => [FmemLimit; FsaveUsageStat; FexecDir]
  | FmemLimit => [FsaveUsageStat; FexecDir]
  | FsaveUsageStat => [FexecDir]
  | FexecDir => []
  end.

(** The documented position of a field: what the vector holds before
    its two tokens, and after them. *)
Definition beforeField (f : optField) (s : Sandbox) : list string :=
  listTokens s ++ flat_map (fieldTokens s) (earlier f).

Definition afterField (f : optField) (s : Sandbox) (path0 : string)
    (args : list string) : list string :=
  flat_map (fieldTokens s) (later f) ++ requestTokens path0 args.

(** [s'] is [s] with at most the one field changed. *)
Definition differOnlyAt (f : optField) (s s' : Sandbox) : Prop :=
  match f with
  | Fcgroup => s' = with_cgroup (cgroup s') s
  | FcpuSet => s' = with_cpuSet (cpuSet s') s
  | FmemLimit => s' = with_memLimit (memLimit s') s
  | FsaveUsageStat => s' = with_saveUsageStat (saveUsageStat s') s
  | FexecDir => s' = with_execDir (execDir s') s
  end.

(** The flags and the separator that do not belong to an optional field. *)
Definition fixedTokens : list string :=
  ["--add_elf_file"; "--add_file"; "--mount_dir"; "--env"; "--no_new_net"; "--"].

(** ** Digit sequences, for the proofs about [FormatUint] *)

(** The decimal digit [d] put in front of the digits [a]. *)
Definition consDigit (d : N) (a : Decimal.uint) : Decimal.uint :=
  match d with
  | 0 => D0 a | 1 => D1 a | 2 => D2 a | 3 => D3 a | 4 => D4 a
  | 5 => D5 a | 6 => D6 a | 7 => D7 a | 8 => D8 a | _ => D9 a
  end%N.

(** [formatBits] in base 10, on digit sequences. *)
Fixpoint formatDec (fuel : nat) (u : N) (a : Decimal.uint) : Decimal.uint :=
  match fuel with
  | O => consDigit u a
  | S fuel' =>
      if (10 <=? u)%N then
        let q := (u / 10)%N in
        formatDec fuel' q (consDigit (u - q * 10) a)
      else consDigit u a
  end.

(** ** Further notions: whole call sequences, the option part, readers *)

(** Two call sequences make the same calls of every builder method, in
    the same order for each method. *)
Definition sameCalls (cs cs' : list Call) : Prop :=
  addedFiles cs = addedFiles cs' /\
  addedMountDirs cs = addedMountDirs cs' /\
  addedEnv cs = addedEnv cs' /\
  sameSetterCalls cs cs'.

Definition optFields : list optField :=
  [Fcgroup; FcpuSet; FmemLimit; FsaveUsageStat; FexecDir].

(** The guard of the compiler for an optional field. *)
Definition isSet (s : Sandbox) (f : optField) : bool :=
  match f with
  | Fcgroup => nonempty (cgroup s)
  | FcpuSet => nonempty (cpuSet s)
  | FmemLimit => negb (memLimit s =? 0)%N
  | FsaveUsageStat => nonempty (saveUsageStat s)
  | FexecDir => nonempty (execDir s)
  end.

(** Every token the compiler writes of its own. *)
Definition compilerTokens : list string := fixedTokens ++ map flagOf optFields.

(** Everything the vector holds before the separator. *)
Definition optionPart (s : Sandbox) : list string :=
  listTokens s ++ flat_map (fieldTokens s) optFields.

(** Reading a decimal numeral; [None] if a character is not a digit. *)
Definition readDecimal (t : string) : option N :=
  option_map N.of_uint (NilEmpty.uint_of_string t).

(** Calling the setter of an optional field with the zero value. *)
Definition clear (f : optField) : method unit :=
  match f with
  | Fcgroup => SetCGroup ""
  | FcpuSet => SetCpuSet ""
  | FmemLimit => SetMemLimit 0
  | FsaveUsageStat => SaveUsageStat ""
  | FexecDir => ExecDir ""
  end.

(** ** The strings of the caller that reach the vector *)

(** A string field, unless it is empty. *)
Definition optionalValue (v : string) : list string :=
  if nonempty v then [v] else [].

(** The strings of the caller in the order of the contract, without the
    empty values of the optional fields. *)
Definition keptStrings (s : Sandbox) (path0 : string) (args : list string)
  : list string :=
  [path s]
  ++ flat_map (fun f => [file.src f; file.dst f]) (files s)
  ++ flat_map (fun d => [mountDir.src d; mountDir.dst d]) (mountDirs s)
  ++ env s
  ++ optionalValue (cgroup s)
  ++ optionalValue (cpuSet s)
  ++ optionalValue (saveUsageStat s)
  ++ optionalValue (execDir s)
  ++ [path0] ++ args.

(** [Subseq l m]: [l] is [m] with some elements left out. *)
Inductive Subseq : list string -> list string -> Prop :=
| Subseq_done : Subseq [] []
| Subseq_take x l m : Subseq l m -> Subseq (x :: l) (x :: m)
| Subseq_skip x l m : Subseq l m -> Subseq l (x :: m).

(** ** Reading a vector back *)

(** A flag with the values that follow it. *)
Definition item : Type := (string * list string)%type.

Definition itemTokens (it : item) : list string := fst it :: snd it.

(** How many values follow a flag; [None] for a token that is no flag. *)
Definition arity (flag : string) : option nat :=
  if String.eqb flag "--add_file" then Some 2
  else if String.eqb flag "--add_elf_file" then Some 2
  else if String.eqb flag "--mount_dir" then Some 2
  else if String.eqb flag "--env" then Some 1
  else if String.eqb flag "--no_new_net" then Some 0
  else if String.eqb flag "--cgroup" then Some 1
  else if String.eqb flag "--cpuset" then Some 1
  else if String.eqb flag "--mem_limit" then Some 1
  else if String.eqb flag "--save_usage_stat" then Some 1
  else if String.eqb flag "--exec_dir" then Some 1
  else None.

(** Reading from left to right: flags with their values up to the first
    separator in flag position, and what follows that separator. *)
Fixpoint lex (l : list string) : option (list item * list string) :=
  match l with
  | [] => None
  | f :: l1 =>
      if String.eqb f "--" then Some ([], l1)
      else
        match arity f with
        | Some 0 =>
            match lex l1 with
            | Some (its, r) => Some ((f, []) :: its, r)
            | None => None
            end
        | Some 1 =>
            match l1 with
            | v :: l2 =>
                match lex l2 with
                | Some (its, r) => Some ((f, [v]) :: its, r)
                | None => None
                end
            | [] => None
            end
        | Some 2 =>
            match l1 with
            | v :: w :: l3 =>
                match lex l3 with
                | Some (its, r) => Some ((f, [v; w]) :: its, r)
                | None => None
                end
            | _ => None
            end
        | _ => None
        end
  end.

Definition wellFormed (it : item) : Prop :=
  fst it <> "--" /\ arity (fst it) = Some (length (snd it))
  /\ length (snd it) <= 2.

(** The flags the compiler writes for a configuration, with their values. *)
Definition fileItem (f : file.t) : item :=
  (if file.withLibs f then "--add_elf_file" else "--add_file",
   [file.src f; file.dst f]).
Definition mountDirItem (d : mountDir.t) : item :=
  ("--mount_dir", [mountDir.src d; mountDir.dst d]).
Definition envItem (e : string) : item := ("--env", [e]).
Definition noNewNetItems (b : bool) : list item :=
  if b then [("--no_new_net", [])] else [].
Definition fieldItems (s : Sandbox) (f : optField) : list item :=
  if isSet s f then [(flagOf f, [rendered f s])] else [].

Definition items (s : Sandbox) : list item :=
  map fileItem (files s)
  ++ map mountDirItem (mountDirs s)
  ++ map envItem (env s)
  ++ noNewNetItems (noNewNet s)
  ++ flat_map (fieldItems s) optFields.

(** The items with a flag that passes the test [P]. *)
Definition pick (P : string -> bool) (its : list item) : list item :=
  filter (fun it => P (fst it)) its.

Definition isFileFlag (f : string) : bool :=
  String.eqb f "--add_file" || String.eqb f "--add_elf_file".

(** ** Examples *)

Example build_unconfigured :
  runState (BuildExecArgs "echo" ["hi"]) (New "/x")
  = (["/x"; "--"; "echo"; "hi"], New "/x").
Proof. reflexivity. Qed.

Example format_512MiB : strconv.FormatUint 536870912 10 = "536870912".
Proof. reflexivity. Qed.

Example readme_chain :
  execArgsOf
    (configured [CallAddFile "/usr/bin/go" "/usr/bin/go" true;
                 CallMountDir "/workspace" "/workspace";
                 CallAddEnv "PATH=/usr/bin";
                 CallSetNoNewNet true;
                 CallSetMemLimit (512 * 1024 * 1024);
                 CallExecDir "/workspace"] (New "/tmp/sandbox"))
    "go" ["test"; "./..."]
  = ["/tmp/sandbox"; "--add_elf_file"; "/usr/bin/go"; "/usr/bin/go";
     "--mount_dir"; "/workspace"; "/workspace"; "--env"; "PATH=/usr/bin";
     "--no_new_net"; "--mem_limit"; "536870912"; "--exec_dir"; "/workspace";
     "--"; "go"; "test"; "./..."].
Proof. reflexivity. Qed.

Example duplicates_kept :
  execArgsOf
    (configured [CallAddFile "/a" "/b" false; CallAddEnv "K=1";
                 CallAddFile "/a" "/b" false; CallAddEnv "K=1"] (New "/r"))
    "p" []
  = ["/r"; "--add_file"; "/a"; "/b"; "--add_file"; "/a"; "/b";
     "--env"; "K=1"; "--env"; "K=1"; "--"; "p"].
Proof. reflexivity. Qed.

(** ** [strconv.FormatUint] prints decimal numerals *)

Section FormatUint.

Local Open Scope N_scope.

Lemma small_cases (P : N -> Prop) :
  P 0 -> P 1 -> P 2 -> P 3 -> P 4 -> P 5 -> P 6 -> P 7 -> P 8 -> P 9 ->
  forall d, d < 10 -> P d.
Proof.
  intros H0 H1 H2 H3 H4 H5 H6 H7 H8 H9 d Hd.
  destruct d as [|p]; [exact H0|].
  do 4 (destruct p as [p|p|]; try exact H1; try exact H2; try exact H3;
        try exact H4; try exact H5; try exact H6; try exact H7;
        try exact H8; try exact H9; try (exfalso; lia)).
Qed.

Lemma string_of_consDigit d a :
  d < 10 ->
  NilEmpty.string_of_uint (consDigit d a)
  = String (strconv.digit d) (NilEmpty.string_of_uint a).
Proof.
  revert d. apply small_cases; reflexivity.
Qed.

Lemma fuel_step fuel u :
  10 <= u -> N.log2 u < N.of_nat (S fuel) -> N.log2 (u / 10) < N.of_nat fuel.
Proof.
  intros Hu Hf.
  assert (Hq : 0 < u / 10) by (apply N.div_str_pos; lia).
  assert (H2 : 2 * (u / 10) <= u).
  { pose proof (N.Div0.mul_div_le u 10). lia. }
  apply N.log2_le_mono in H2.
  rewrite (N.log2_double _ Hq) in H2. lia.
Qed.

Lemma last_digit_small u : u - u / 10 * 10 < 10.
Proof.
  pose proof (N.Div0.mod_eq u 10) as E. rewrite (N.mul_comm (u / 10) 10).
  rewrite <- E. apply N.mod_lt. discriminate.
Qed.

Lemma formatBits_formatDec fuel : forall u a,
  N.log2 u < N.of_nat fuel ->
  strconv.formatBits fuel u 10 (NilEmpty.string_of_uint a)
  = NilEmpty.string_of_uint (formatDec fuel u a).
Proof.
  induction fuel as [|fuel IH]; intros u a Hf; [lia|].
  cbn [strconv.formatBits formatDec].
  destruct (N.leb_spec 10 u) as [Hu|Hu].
  - cbv zeta. rewrite <- (IH _ _ (fuel_step _ _ Hu Hf)).
    now rewrite (string_of_consDigit _ a (last_digit_small u)).
  - now rewrite string_of_consDigit.
Qed.

(** The number a digit sequence denotes. *)
Lemma of_uint_consDigit d a :
  d < 10 ->
  N.of_uint (consDigit d a) = N.of_uint a + d * 10 ^ Unsigned.usize a.
Proof.
  intros Hd. unfold N.of_uint. rewrite !Unsigned.of_uint_alt.
  revert d Hd. apply small_cases; cbn [consDigit]; unfold rev;
    cbn [revapp]; rewrite Unsigned.of_lu_revapp; reflexivity.
Qed.

Lemma usize_consDigit d a :
  Unsigned.usize (consDigit d a) = N.succ (Unsigned.usize a).
Proof.
  destruct d as [|p]; [reflexivity|].
  do 4 (destruct p as [p|p|]; try reflexivity).
Qed.

Lemma of_uint_formatDec fuel : forall u a,
  N.log2 u < N.of_nat fuel ->
  N.of_uint (formatDec fuel u a) = N.of_uint a + u * 10 ^ Unsigned.usize a.
Proof.
  induction fuel as [|fuel IH]; intros u a Hf; [lia|].
  cbn [formatDec].
  destruct (N.leb_spec 10 u) as [Hu|Hu].
  - cbv zeta. rewrite (IH _ _ (fuel_step _ _ Hu Hf)).
    rewrite (of_uint_consDigit _ a (last_digit_small u)), usize_consDigit.
    rewrite N.pow_succ_r'.
    pose proof (N.Div0.mul_div_le u 10) as Hle.
    set (q := u / 10) in *. set (t := 10 ^ Unsigned.usize a).
    assert (E : u = (u - q * 10) + q * 10) by lia.
    set (r := u - q * 10) in *. rewrite E. ring.
  - now apply of_uint_consDigit.
Qed.

Lemma unorm_consDigit d a :
  d <> 0 -> unorm (consDigit d a) = consDigit d a.
Proof.
  intros Hd. destruct d as [|p]; [congruence|].
  do 4 (destruct p as [p|p|]; try reflexivity).
Qed.

Lemma unorm_formatDec fuel : forall u a,
  u <> 0 -> unorm (formatDec fuel u a) = formatDec fuel u a.
Proof.
  induction fuel as [|fuel IH]; intros u a Hu; cbn [formatDec].
  - now apply unorm_consDigit.
  - destruct (N.leb_spec 10 u) as [H|H].
    + cbv zeta. apply IH.
      assert (0 < u / 10) by (apply N.div_str_pos; lia). lia.
    + now apply unorm_consDigit.
Qed.

(** [FormatUint] in base 10 prints the decimal numeral of its argument. *)
Lemma FormatUint_decimal n : strconv.FormatUint n 10 = decimal n.
Proof.
  unfold strconv.FormatUint, decimal.
  assert (Hf : N.log2 n < N.of_nat (S (N.to_nat (N.log2 n)))) by lia.
  change EmptyString with (NilEmpty.string_of_uint Nil).
  rewrite (formatBits_formatDec _ _ Nil Hf). f_equal.
  destruct (N.eq_dec n 0) as [->|Hn]; [reflexivity|].
  rewrite <- (unorm_formatDec _ n Nil Hn).
  rewrite <- DecimalN.Unsigned.to_of.
  rewrite (of_uint_formatDec _ _ Nil Hf). cbn. f_equal. lia.
Qed.

(** A decimal numeral starts with a digit, so it is none of the flags. *)
Lemma decimal_head n :
  exists c rest, decimal n = String c rest /\ c <> "-"%char.
Proof.
  unfold decimal.
  assert (H : N.to_uint n <> Nil).
  { destruct n; cbn; [discriminate|apply Unsigned.to_uint_nonnil]. }
  destruct (N.to_uint n); [congruence| ..]; cbn;
    eexists; eexists; (split; [reflexivity|discriminate]).
Qed.

End FormatUint.

(** ** What [BuildExecArgs] returns and leaves behind *)

Section Compiler.

Lemma fold_addFileArgs fs : forall acc,
  fold_left addFileArgs fs acc = acc ++ flat_map fileTokens fs.
Proof.
  induction fs as [|f fs IH]; intros acc; cbn [fold_left flat_map].
  - now rewrite List.app_nil_r.
  - rewrite IH. unfold addFileArgs, fileTokens.
    destruct (file.withLibs f); now rewrite <- !List.app_assoc.
Qed.

Lemma fold_addMountDirArgs ds : forall acc,
  fold_left addMountDirArgs ds acc = acc ++ flat_map mountDirTokens ds.
Proof.
  induction ds as [|d ds IH]; intros acc; cbn [fold_left flat_map].
  - now rewrite List.app_nil_r.
  - rewrite IH. unfold addMountDirArgs, mountDirTokens.
    now rewrite <- List.app_assoc.
Qed.

Lemma fold_addEnvArgs es : forall acc,
  fold_left addEnvArgs es acc = acc ++ flat_map envTokens es.
Proof.
  induction es as [|e es IH]; intros acc; cbn [fold_left flat_map].
  - now rewrite List.app_nil_r.
  - rewrite IH. unfold addEnvArgs, envTokens. now rewrite <- List.app_assoc.
Qed.

Lemma append_option (flag v : string) (acc : list string) :
  (if nonempty v then acc ++ [flag; v] else acc) = acc ++ optionTokens flag v.
Proof.
  unfold optionTokens. destruct v; cbn.
  - now rewrite List.app_nil_r.
  - reflexivity.
Qed.

Lemma append_memLimit n (acc : list string) :
  (if negb (n =? 0)%N then acc ++ ["--mem_limit"; strconv.FormatUint n 10]
   else acc) = acc ++ memLimitTokens n.
Proof.
  unfold memLimitTokens. rewrite FormatUint_decimal.
  destruct (N.eqb_spec n 0) as [E|E]; destruct (N.eq_dec n 0); try congruence; cbn.
  - now rewrite List.app_nil_r.
  - reflexivity.
Qed.

Lemma append_noNewNet (b : bool) (acc : list string) :
  (if b then acc ++ ["--no_new_net"] else acc) = acc ++ noNewNetTokens b.
Proof. destruct b; cbn; [reflexivity | now rewrite List.app_nil_r]. Qed.

(** One run of the method: the vector of the contract, and the receiver
    as it was. *)
Lemma BuildExecArgs_run s path0 args :
  runState (BuildExecArgs path0 args) s = (compiled s path0 args, s).
Proof.
  unfold BuildExecArgs. cbn. f_equal.
  rewrite fold_addFileArgs, fold_addMountDirArgs, fold_addEnvArgs.
  rewrite append_noNewNet, !append_option, append_memLimit.
  unfold compiled, listTokens, requestTokens.
  rewrite <- !List.app_assoc. reflexivity.
Qed.

End Compiler.

(** ** The command [exec.Command] builds *)

Section Exec.

Context {Context : Type}.

Lemma Args_newCmd (host : exec.Host) (name : string) (arg : list string) :
  exec.Args (exec.newCmd (Context := Context) host name arg) = name :: arg.
Proof.
  unfold exec.newCmd.
  destruct (String.eqb (exec.Base host name) name); [|reflexivity].
  destruct (exec.LookPath host name) as [lp [e|]];
    destruct (nonempty lp); reflexivity.
Qed.

Lemma ctx_newCmd (host : exec.Host) (name : string) (arg : list string) :
  exec.ctx (exec.newCmd (Context := Context) host name arg) = None.
Proof.
  unfold exec.newCmd.
  destruct (String.eqb (exec.Base host name) name); [|reflexivity].
  destruct (exec.LookPath host name) as [lp [e|]];
    destruct (nonempty lp); reflexivity.
Qed.

End Exec.

Section Contract.

(** C1. For every configuration and every execution request,
    [BuildExecArgs] returns exactly the concatenation the contract
    lists: the root path; per file the flag [--add_elf_file] or
    [--add_file], then [src], then [dst]; per mounted directory
    [--mount_dir], [src], [dst]; per environment entry [--env] and the
    entry; [--no_new_net] if set; [--cgroup], [--cpuset], [--mem_limit]
    (with the decimal numeral), [--save_usage_stat] and [--exec_dir] with
    their values when these are not at their zero value; then ["--"], the
    program path and the program arguments. *)
Theorem BuildExecArgs_contract (s : Sandbox) (path0 : string) (args : list string) :
  execArgsOf s path0 args
  = [path s]
    ++ flat_map (fun f => [if file.withLibs f then "--add_elf_file" else "--add_file";
                           file.src f; file.dst f]) (files s)
    ++ flat_map (fun d => ["--mount_dir"; mountDir.src d; mountDir.dst d]) (mountDirs s)
    ++ flat_map (fun e => ["--env"; e]) (env s)
    ++ (if noNewNet s then ["--no_new_net"] else [])
    ++ (if string_dec (cgroup s) "" then [] else ["--cgroup"; cgroup s])
    ++ (if string_dec (cpuSet s) "" then [] else ["--cpuset"; cpuSet s])
    ++ (if N.eq_dec (memLimit s) 0 then []
        else ["--mem_limit"; decimal (memLimit s)])
    ++ (if string_dec (saveUsageStat s) "" then []
        else ["--save_usage_stat"; saveUsageStat s])
    ++ (if string_dec (execDir s) "" then [] else ["--exec_dir"; execDir s])
    ++ ["--"] ++ [path0] ++ args.
Proof.
  unfold execArgsOf, evalState. rewrite BuildExecArgs_run. cbn [fst].
  unfold compiled, listTokens, requestTokens.
  rewrite <- !List.app_assoc. reflexivity.
Qed.

(** C2. The two worked examples compile exactly as listed. *)
Theorem worked_examples :
  evalState (AddFile "/bin/go" "/bin/go" true ;;
             AddEnv "PATH=/usr/bin" ;;
             SetNoNewNet true ;;
             SetMemLimit 536870912 ;;
             BuildExecArgs "go" ["test"; "./..."]) (New "/tmp/sb")
  = ["/tmp/sb"; "--add_elf_file"; "/bin/go"; "/bin/go"; "--env";
     "PATH=/usr/bin"; "--no_new_net"; "--mem_limit"; "536870912"; "--";
     "go"; "test"; "./..."]
  /\ evalState (BuildExecArgs "echo" ["hi"]) (New "/x")
     = ["/x"; "--"; "echo"; "hi"].
Proof. split; vm_compute; reflexivity. Qed.

(** C8. [BuildExecArgs] never mutates its receiver: after the call the
    [Sandbox] is the one before it, field for field, so a second compile
    against another request sees the same configuration; this holds for
    every configuration, a fresh [New] one included. *)
Theorem BuildExecArgs_frame (s : Sandbox) (path0 : string) (args : list string) :
  execState (BuildExecArgs path0 args) s = s
  /\ (forall path1 args1,
        runState (r0 <- BuildExecArgs path0 args ;;
                  r1 <- BuildExecArgs path1 args1 ;;
                  ret (r0, r1)) s
        = ((execArgsOf s path0 args, execArgsOf s path1 args1), s))
  /\ (forall root,
        runState (BuildExecArgs path0 args) (New root)
        = ([root; "--"; path0] ++ args, New root)).
Proof.
  split; [|split].
  - unfold execState. now rewrite BuildExecArgs_run.
  - intros path1 args1. unfold execArgsOf, evalState.
    cbn [bind Monad_state runState]. rewrite (BuildExecArgs_run s path0 args).
    cbn [fst runState]. now rewrite BuildExecArgs_run.
  - intros root. rewrite BuildExecArgs_run. reflexivity.
Qed.

(** C9. Compiling the same configuration against the same request twice,
    one call after the other on the same receiver, returns two identical
    vectors. *)
Theorem BuildExecArgs_idempotent (s : Sandbox) (path0 : string) (args : list string) :
  let (first, second) :=
    evalState (r0 <- BuildExecArgs path0 args ;;
               r1 <- BuildExecArgs path0 args ;;
               ret (r0, r1)) s in
  first = second.
Proof.
  unfold evalState. cbn [bind Monad_state runState].
  rewrite BuildExecArgs_run. cbn [runState]. now rewrite BuildExecArgs_run.
Qed.

(** C10. [Command] and [CommandContext] with a nil context build the
    same command: the executable [Path] with the vector of
    [BuildExecArgs], obtained from the context-free primitive; the nil
    context does not reach [exec.CommandContext], which would panic on
    it. *)
Theorem Command_nil_context (Context : Type) (host : exec.Host)
    (Path : string) (s : Sandbox) (path0 : string) (args : list string) :
  runState (Command (Context := Context) host Path path0 args) s
  = runState (CommandContext (Context := Context) host Path None path0 args) s
  /\ runState (CommandContext (Context := Context) host Path None path0 args) s
     = (exec.Command host Path (execArgsOf s path0 args), s)
  /\ (exists c,
        exec.Command (Context := Context) host Path (execArgsOf s path0 args)
        = exec.Returns c
        /\ exec.Args c = Path :: execArgsOf s path0 args
        /\ exec.ctx c = None)
  /\ exec.Command (Context := Context) host Path (execArgsOf s path0 args)
     <> exec.CommandContext host None Path (execArgsOf s path0 args).
Proof.
  split; [reflexivity|]. split; [|split].
  - unfold CommandContext, execArgsOf, evalState.
    cbn [bind Monad_state runState]. rewrite BuildExecArgs_run. reflexivity.
  - eexists. split; [reflexivity|]. split.
    + apply Args_newCmd.
    + apply ctx_newCmd.
  - discriminate.
Qed.

End Contract.

(** ** The builder: what a chain of calls leaves in the receiver *)

Section Builder.

Lemma configured_nil s : configured [] s = s.
Proof. reflexivity. Qed.

Lemma configured_cons c cs s :
  configured (c :: cs) s = configured cs (execState (call c) s).
Proof.
  unfold configured, execState. cbn [chain bind Monad_state runState].
  destruct (runState (call c) s); reflexivity.
Qed.

Lemma last_cons {A : Type} (a d : A) (l : list A) : last (a :: l) d = last l a.
Proof.
  revert a d. induction l as [|b l IH]; intros a d; [reflexivity|].
  change (last (a :: b :: l) d) with (last (b :: l) d).
  now rewrite (IH b d), (IH b a).
Qed.

(** Each scalar field after a chain: the value of the last call of its
    setter, or the old value if the chain has no such call. *)
Ltac last_write :=
  match goal with
  | |- forall s : Sandbox, _ =>
      let c := fresh "c" in
      let cs := fresh "cs" in
      let IH := fresh "IH" in
      intros s; revert s;
      match goal with
      | cs0 : list Call |- _ =>
          induction cs0 as [|c cs IH]; intros s;
          [ reflexivity
          | rewrite configured_cons, IH; destruct c; cbn -[last];
            rewrite ?last_cons; reflexivity ]
      end
  end.

Lemma noNewNet_configured cs : forall s,
  noNewNet (configured cs s) = last (noNewNetWrites cs) (noNewNet s).
Proof. last_write. Qed.

Lemma cgroup_configured cs : forall s,
  cgroup (configured cs s) = last (cgroupWrites cs) (cgroup s).
Proof. last_write. Qed.

Lemma cpuSet_configured cs : forall s,
  cpuSet (configured cs s) = last (cpuSetWrites cs) (cpuSet s).
Proof. last_write. Qed.

Lemma memLimit_configured cs : forall s,
  memLimit (configured cs s) = last (memLimitWrites cs) (memLimit s).
Proof. last_write. Qed.

Lemma saveUsageStat_configured cs : forall s,
  saveUsageStat (configured cs s)
  = last (saveUsageStatWrites cs) (saveUsageStat s).
Proof. last_write. Qed.

Lemma execDir_configured cs : forall s,
  execDir (configured cs s) = last (execDirWrites cs) (execDir s).
Proof. last_write. Qed.

(** The list fields only grow, at their end, in call order. *)
Ltac appended :=
  match goal with
  | cs0 : list Call |- forall s : Sandbox, _ =>
      let c := fresh "c" in
      let cs := fresh "cs" in
      let IH := fresh "IH" in
      induction cs0 as [|c cs IH]; intros s;
      [ cbn; now rewrite ?List.app_nil_r
      | rewrite configured_cons, IH; destruct c; cbn;
        rewrite <- ?List.app_assoc; reflexivity ]
  end.

Lemma path_configured cs : forall s, path (configured cs s) = path s.
Proof. appended. Qed.

Lemma files_configured cs : forall s,
  files (configured cs s) = files s ++ addedFiles cs.
Proof. appended. Qed.

Lemma mountDirs_configured cs : forall s,
  mountDirs (configured cs s) = mountDirs s ++ addedMountDirs cs.
Proof. appended. Qed.

Lemma env_configured cs : forall s,
  env (configured cs s) = env s ++ addedEnv cs.
Proof. appended. Qed.

(** C4. After any sequence of builder calls each scalar field holds the
    last value passed to its setter (its old value if the setter was not
    called), and two sequences that make the same calls of each setter,
    interleaved differently, leave the same scalar fields. *)
Theorem setters_last_write_wins (s : Sandbox) (cs cs' : list Call) :
  sameSetterCalls cs cs' ->
  (noNewNet (configured cs s) = last (noNewNetWrites cs) (noNewNet s)
   /\ cgroup (configured cs s) = last (cgroupWrites cs) (cgroup s)
   /\ cpuSet (configured cs s) = last (cpuSetWrites cs) (cpuSet s)
   /\ memLimit (configured cs s) = last (memLimitWrites cs) (memLimit s)
   /\ saveUsageStat (configured cs s)
      = last (saveUsageStatWrites cs) (saveUsageStat s)
   /\ execDir (configured cs s) = last (execDirWrites cs) (execDir s))
  /\ scalars (configured cs' s) = scalars (configured cs s).
Proof.
  intros (Hn & Hg & Hc & Hm & Hu & He).
  split.
  - repeat split; auto using noNewNet_configured, cgroup_configured,
      cpuSet_configured, memLimit_configured, saveUsageStat_configured,
      execDir_configured.
  - unfold scalars.
    rewrite !noNewNet_configured, !cgroup_configured, !cpuSet_configured,
      !memLimit_configured, !saveUsageStat_configured, !execDir_configured.
    now rewrite Hn, Hg, Hc, Hm, Hu, He.
Qed.

Lemma setters_last_write_wins_witness :
  scalars (configured [CallSetMemLimit 7; CallSetCGroup "a";
                       CallSetNoNewNet true; CallSetCGroup "b"] (New "/x"))
  = scalars (configured [CallSetCGroup "a"; CallSetNoNewNet true;
                         CallSetCGroup "b"; CallSetMemLimit 7] (New "/x"))
  /\ cgroup (configured [CallSetCGroup "a"; CallSetNoNewNet true;
                         CallSetCGroup "b"; CallSetMemLimit 7] (New "/x"))
     = "b".
Proof.
  assert (H : sameSetterCalls
                [CallSetCGroup "a"; CallSetNoNewNet true;
                 CallSetCGroup "b"; CallSetMemLimit 7]
                [CallSetMemLimit 7; CallSetCGroup "a";
                 CallSetNoNewNet true; CallSetCGroup "b"]).
  { repeat split. }
  destruct (setters_last_write_wins (New "/x") _ _ H) as [Hl Hs].
  split; [exact Hs|].
  destruct Hl as (_ & Hg & _). exact Hg.
Defined.

(** C5. After any sequence of builder calls the returned vector lists
    the files, the mounted directories and the environment entries each
    in the order of the calls that added them, after those already in
    the receiver, one group of tokens per call: equal entries stay as
    many as they were added. *)
Theorem insertion_order_kept (s : Sandbox) (cs : list Call)
    (path0 : string) (args : list string) :
  let s' := configured cs s in
  files s' = files s ++ addedFiles cs
  /\ mountDirs s' = mountDirs s ++ addedMountDirs cs
  /\ env s' = env s ++ addedEnv cs
  /\ execArgsOf s' path0 args
     = [path s]
       ++ flat_map fileTokens (files s ++ addedFiles cs)
       ++ flat_map mountDirTokens (mountDirs s ++ addedMountDirs cs)
       ++ flat_map envTokens (env s ++ addedEnv cs)
       ++ noNewNetTokens (noNewNet s')
       ++ optionTokens "--cgroup" (cgroup s')
       ++ optionTokens "--cpuset" (cpuSet s')
       ++ memLimitTokens (memLimit s')
       ++ optionTokens "--save_usage_stat" (saveUsageStat s')
       ++ optionTokens "--exec_dir" (execDir s')
       ++ requestTokens path0 args.
Proof.
  cbv zeta. repeat split;
    auto using files_configured, mountDirs_configured, env_configured.
  unfold execArgsOf, evalState. rewrite BuildExecArgs_run. cbn [fst].
  unfold compiled, listTokens.
  rewrite path_configured, files_configured, mountDirs_configured,
    env_configured.
  rewrite <- !List.app_assoc. reflexivity.
Qed.

End Builder.

(** ** Where the tokens of the vector come from *)

Section Tokens.

Lemma execArgsOf_compiled s path0 args :
  execArgsOf s path0 args = compiled s path0 args.
Proof. unfold execArgsOf, evalState. now rewrite BuildExecArgs_run. Qed.

(** C7. The network flag takes zero tokens of the vector when
    [noNewNet] is false and exactly the one token [--no_new_net], with
    no value after it, when it is true; the tokens before and after it
    do not depend on [noNewNet]. *)
Theorem noNewNet_flag (s : Sandbox) (path0 : string) (args : list string) :
  let before :=
    [path s] ++ flat_map fileTokens (files s)
    ++ flat_map mountDirTokens (mountDirs s) ++ flat_map envTokens (env s) in
  let after :=
    flat_map (fieldTokens s)
             [Fcgroup; FcpuSet; FmemLimit; FsaveUsageStat; FexecDir]
    ++ requestTokens path0 args in
  execArgsOf s path0 args
  = before ++ (if noNewNet s then ["--no_new_net"] else []) ++ after
  /\ execArgsOf (with_noNewNet false s) path0 args = before ++ after
  /\ execArgsOf (with_noNewNet true s) path0 args
     = before ++ ["--no_new_net"] ++ after.
Proof.
  cbv zeta. rewrite !execArgsOf_compiled.
  unfold compiled, listTokens, noNewNetTokens.
  cbn [flat_map fieldTokens with_noNewNet path files mountDirs env noNewNet
       cgroup cpuSet memLimit saveUsageStat execDir].
  rewrite List.app_nil_r, <- !List.app_assoc.
  repeat split; reflexivity.
Qed.

(** *** Counting the separator *)

Lemma separators_app l l' : separators (l ++ l') = separators l + separators l'.
Proof. apply count_occ_app. Qed.

Lemma separators_one t : t <> "--" -> forall l, separators (t :: l) = separators l.
Proof.
  intros Ht l. unfold separators. cbn [count_occ].
  destruct (string_dec t "--"); [contradiction|reflexivity].
Qed.

Lemma separators_files fs :
  separators (flat_map fileTokens fs)
  = separators (flat_map (fun f => [file.src f; file.dst f]) fs).
Proof.
  induction fs as [|f fs IH]; [reflexivity|].
  cbn [flat_map]. rewrite !separators_app, IH. f_equal.
  unfold fileTokens.
  destruct (file.withLibs f); now rewrite separators_one by discriminate.
Qed.

Lemma separators_mountDirs ds :
  separators (flat_map mountDirTokens ds)
  = separators (flat_map (fun d => [mountDir.src d; mountDir.dst d]) ds).
Proof.
  induction ds as [|d ds IH]; [reflexivity|].
  cbn [flat_map]. rewrite !separators_app, IH.
  unfold mountDirTokens. now rewrite separators_one by discriminate.
Qed.

Lemma separators_env es : separators (flat_map envTokens es) = separators es.
Proof.
  induction es as [|e es IH]; [reflexivity|].
  cbn [flat_map]. rewrite separators_app, IH. unfold envTokens.
  rewrite separators_one by discriminate.
  change (e :: es) with ([e] ++ es). now rewrite separators_app.
Qed.

Lemma separators_noNewNet b : separators (noNewNetTokens b) = 0.
Proof. destruct b; reflexivity. Qed.

Lemma separators_option flag v :
  flag <> "--" -> separators (optionTokens flag v) = separators [v].
Proof.
  intros Hf. unfold optionTokens.
  destruct (string_dec v "") as [->|Hv]; [reflexivity|].
  now rewrite separators_one.
Qed.

Lemma separators_memLimit n : separators (memLimitTokens n) = 0.
Proof.
  unfold memLimitTokens. destruct (N.eq_dec n 0); [reflexivity|].
  rewrite separators_one by discriminate.
  destruct (decimal_head n) as (c & rest & E & Hc). rewrite E.
  rewrite separators_one; [reflexivity|].
  intros H. injection H as H _. contradiction.
Qed.

(** The vector holds the separator the compiler writes and those the
    caller passed in as data. *)
Lemma separators_compiled s path0 args :
  separators (compiled s path0 args)
  = S (separators (callerStrings s path0 args)).
Proof.
  unfold compiled, listTokens, requestTokens, callerStrings.
  change [cgroup s; cpuSet s; saveUsageStat s; execDir s]
    with ([cgroup s] ++ [cpuSet s] ++ [saveUsageStat s] ++ [execDir s]).
  rewrite !separators_app.
  rewrite separators_files, separators_mountDirs, separators_env,
    separators_noNewNet, separators_memLimit.
  rewrite !separators_option by discriminate.
  change (separators ["--"]) with 1. lia.
Qed.

(** C3, as the code has it.  The compiler writes the separator once,
    immediately before the program path: the vector is the option part of
    the configuration, then ["--"], the program path and the arguments,
    and it holds exactly one ["--"] more than the strings supplied by the
    caller do.  When no string supplied by the caller (root path, file and
    directory sources and destinations, environment entries, cgroup, cpu
    set, statistics file, working directory, program path, program
    arguments) is itself ["--"], the token occurs exactly once in the
    vector. *)
Theorem separator_once (s : Sandbox) (path0 : string) (args : list string) :
  execArgsOf s path0 args = optionPart s ++ "--" :: path0 :: args
  /\ separators (execArgsOf s path0 args)
     = S (separators (callerStrings s path0 args))
  /\ (~ In "--" (callerStrings s path0 args) ->
      separatorOnce (execArgsOf s path0 args) path0 args).
Proof.
  rewrite execArgsOf_compiled.
  assert (E : compiled s path0 args = optionPart s ++ "--" :: path0 :: args).
  { unfold compiled, optionPart, optFields, requestTokens.
    cbn [flat_map fieldTokens].
    rewrite List.app_nil_r, <- !List.app_assoc. reflexivity. }
  split; [exact E|]. split; [apply separators_compiled|].
  intros Hnot. split.
  - rewrite separators_compiled. unfold separators.
    now rewrite (proj1 (count_occ_not_In string_dec _ _) Hnot).
  - exists (optionPart s). exact E.
Qed.

Lemma separator_once_witness :
  separatorOnce
    (execArgsOf (with_cgroup "jobs" (New "/x")) "echo" ["hi"]) "echo" ["hi"].
Proof.
  apply (proj2 (proj2 (separator_once (with_cgroup "jobs" (New "/x"))
                                      "echo" ["hi"]))).
  cbn. intros H.
  repeat (destruct H as [H|H]; [discriminate H|]). exact H.
Defined.

(** C3, as the claim words it, fails: a program argument ["--"] is a
    second occurrence of the token. *)
Lemma separator_twice :
  ~ separatorOnce (execArgsOf (New "/x") "echo" ["--"]) "echo" ["--"].
Proof. intros [H _]. vm_compute in H. discriminate H. Qed.

End Tokens.

(** ** The optional scalar fields in the vector *)

Section Omission.

Lemma in_fileTokens t fs :
  In t (flat_map fileTokens fs) ->
  In t (flat_map (fun f => [file.src f; file.dst f]) fs) \/ In t fixedTokens.
Proof.
  induction fs as [|f fs IH]; [intros []|].
  cbn [flat_map]. rewrite !in_app_iff.
  intros [H|H]; [|destruct (IH H); auto].
  unfold fileTokens in H. destruct H as [H|H].
  - right. subst t. destruct (file.withLibs f); cbn; auto.
  - auto.
Qed.

Lemma in_mountDirTokens t ds :
  In t (flat_map mountDirTokens ds) ->
  In t (flat_map (fun d => [mountDir.src d; mountDir.dst d]) ds)
  \/ In t fixedTokens.
Proof.
  induction ds as [|d ds IH]; [intros []|].
  cbn [flat_map]. rewrite !in_app_iff.
  intros [H|H]; [|destruct (IH H); auto].
  unfold mountDirTokens in H. destruct H as [H|H].
  - right. subst t. cbn. auto.
  - auto.
Qed.

Lemma in_envTokens t es :
  In t (flat_map envTokens es) -> In t es \/ In t fixedTokens.
Proof.
  induction es as [|e es IH]; [intros []|].
  cbn [flat_map]. rewrite in_app_iff.
  intros [H|H]; [|destruct (IH H); [left; now right | auto]].
  destruct H as [H|[H|[]]].
  - right. subst t. cbn. auto 6.
  - left. now left.
Qed.

Lemma in_noNewNetTokens t b : In t (noNewNetTokens b) -> In t fixedTokens.
Proof.
  destruct b; [|intros []]. intros [H|[]]. subst t. cbn. auto 6.
Qed.

Lemma in_optionTokens t flag v :
  In t (optionTokens flag v) -> v <> "" /\ (t = flag \/ t = v).
Proof.
  unfold optionTokens. destruct (string_dec v ""); [intros []|].
  intros [H|[H|[]]]; auto.
Qed.

Lemma in_memLimitTokens t n :
  In t (memLimitTokens n) -> n <> 0%N /\ (t = "--mem_limit" \/ t = decimal n).
Proof.
  unfold memLimitTokens. destruct (N.eq_dec n 0); [intros []|].
  intros [H|[H|[]]]; auto.
Qed.

Lemma in_fieldTokens t s f :
  In t (fieldTokens s f) -> ~ atDefault f s /\ (t = flagOf f \/ t = rendered f s).
Proof.
  destruct f; cbn [fieldTokens atDefault flagOf rendered]; intros H;
    first [apply in_optionTokens in H | apply in_memLimitTokens in H];
    intuition auto.
Qed.

(** Every token of the vector is a string of the caller, a flag of the
    list part or the separator, or belongs to an optional field that is
    not at its zero value. *)
Lemma token_origin t s path0 args :
  In t (compiled s path0 args) ->
  In t (callerStrings s path0 args)
  \/ In t fixedTokens
  \/ exists f, ~ atDefault f s /\ (t = flagOf f \/ t = rendered f s).
Proof.
  unfold compiled, listTokens, requestTokens, callerStrings.
  rewrite !in_app_iff.
  intros [[H|[H|[H|[H|H]]]]|[H|[H|[H|[H|[H|[H|[H|H]]]]]]]].
  - auto.
  - apply in_fileTokens in H. tauto.
  - apply in_mountDirTokens in H. tauto.
  - apply in_envTokens in H. tauto.
  - apply in_noNewNetTokens in H. tauto.
  - right; right; exists Fcgroup. now apply in_fieldTokens.
  - right; right; exists FcpuSet. now apply in_fieldTokens.
  - right; right; exists FmemLimit. now apply in_fieldTokens.
  - right; right; exists FsaveUsageStat. now apply in_fieldTokens.
  - right; right; exists FexecDir. now apply in_fieldTokens.
  - right; left. destruct H as [H|[]]. subst t. cbn. auto 7.
  - auto 10.
  - auto 10.
Qed.

Lemma flagOf_inj f g : flagOf f = flagOf g -> f = g.
Proof. destruct f, g; cbn; intros H; try reflexivity; discriminate H. Qed.

Lemma flagOf_not_fixed f : ~ In (flagOf f) fixedTokens.
Proof.
  destruct f; cbn; intros H;
    repeat (destruct H as [H|H]; [discriminate H|]); exact H.
Qed.

Lemma flagOf_not_decimal f n : flagOf f <> decimal n.
Proof.
  destruct (decimal_head n) as (c & rest & E & Hc). rewrite E.
  destruct f; cbn; intros H; injection H as H _; congruence.
Qed.

Lemma rendered_caller g s path0 args :
  g <> FmemLimit -> In (rendered g s) (callerStrings s path0 args).
Proof.
  intros Hg. unfold callerStrings. rewrite !in_app_iff.
  do 4 right. left. destruct g; cbn; auto; congruence.
Qed.

(** A flag of an optional field at its zero value is in the vector only
    if the caller passed that very string in as data. *)
Lemma flag_absent f s path0 args :
  atDefault f s ->
  ~ In (flagOf f) (callerStrings s path0 args) ->
  ~ In (flagOf f) (compiled s path0 args).
Proof.
  intros Hd Hc Hin.
  destruct (token_origin _ _ _ _ Hin) as [H|[H|(g & Hg & [H|H])]].
  - auto.
  - now apply (flagOf_not_fixed f).
  - apply flagOf_inj in H. subst g. auto.
  - destruct g; try (apply Hc; rewrite H; apply rendered_caller; discriminate).
    now apply (flagOf_not_decimal f (memLimit s)).
Qed.

Lemma compiled_at_field f s path0 args :
  compiled s path0 args
  = beforeField f s ++ fieldTokens s f ++ afterField f s path0 args.
Proof.
  unfold compiled, beforeField, afterField.
  destruct f; cbn [earlier later flat_map fieldTokens];
    rewrite ?List.app_nil_r, <- ?List.app_assoc; reflexivity.
Qed.

Lemma fieldTokens_default f s : atDefault f s -> fieldTokens s f = [].
Proof.
  destruct f; cbn [atDefault fieldTokens]; intros ->; reflexivity.
Qed.

Lemma fieldTokens_set f s :
  ~ atDefault f s -> fieldTokens s f = [flagOf f; rendered f s].
Proof.
  destruct f; cbn [atDefault fieldTokens flagOf rendered];
    unfold optionTokens, memLimitTokens; intros H;
    first [destruct (string_dec _ "") | destruct (N.eq_dec _ 0)];
    try reflexivity; contradiction.
Qed.

Lemma position_kept f s s' path0 args :
  differOnlyAt f s s' ->
  beforeField f s' = beforeField f s
  /\ afterField f s' path0 args = afterField f s path0 args.
Proof.
  unfold beforeField, afterField, listTokens.
  destruct f; cbn [differOnlyAt earlier later flat_map fieldTokens];
    intros ->; split; reflexivity.
Qed.

(** C6, as the code has it.  For an optional scalar field at its zero
    value the compiler writes neither flag nor value: the vector is what
    comes before the field's position followed by what comes after it,
    and the flag occurs in it only if a string supplied by the caller is
    that very string.  Changing that one field to a value other than its
    zero value inserts exactly the flag and the value at that position
    and changes no other token. *)
Theorem optional_field_omission (f : optField) (s : Sandbox)
    (path0 : string) (args : list string) :
  atDefault f s ->
  execArgsOf s path0 args = beforeField f s ++ afterField f s path0 args
  /\ (~ In (flagOf f) (callerStrings s path0 args) ->
      ~ In (flagOf f) (execArgsOf s path0 args))
  /\ (forall s',
        differOnlyAt f s s' -> ~ atDefault f s' ->
        execArgsOf s' path0 args
        = beforeField f s ++ [flagOf f; rendered f s']
          ++ afterField f s path0 args).
Proof.
  intros Hd. split; [|split].
  - rewrite execArgsOf_compiled, (compiled_at_field f).
    now rewrite (fieldTokens_default f s Hd).
  - rewrite execArgsOf_compiled. now apply flag_absent.
  - intros s' Hs Hv.
    rewrite execArgsOf_compiled, (compiled_at_field f).
    rewrite (fieldTokens_set f s' Hv).
    destruct (position_kept f s s' path0 args Hs) as [-> ->]. reflexivity.
Qed.

Lemma optional_field_omission_witness :
  execArgsOf (New "/x") "echo" ["hi"] = ["/x"; "--"; "echo"; "hi"]
  /\ ~ In "--mem_limit" (execArgsOf (New "/x") "echo" ["hi"])
  /\ execArgsOf (with_memLimit 5 (New "/x")) "echo" ["hi"]
     = ["/x"; "--mem_limit"; "5"; "--"; "echo"; "hi"].
Proof.
  destruct (optional_field_omission FmemLimit (New "/x") "echo" ["hi"] eq_refl)
    as (H1 & H2 & H3).
  split; [exact H1|split].
  - apply H2. cbn. intros H.
    repeat (destruct H as [H|H]; [discriminate H|]). exact H.
  - apply (H3 (with_memLimit 5 (New "/x"))); [reflexivity|discriminate].
Defined.

(** C6, as the claim words it, fails: with [cgroup] at its zero value
    the token [--cgroup] is in the vector when the program takes it as
    an argument. *)
Lemma default_flag_present :
  atDefault Fcgroup (New "/x")
  /\ In (flagOf Fcgroup)
        (execArgsOf (New "/x") "echo" ["--cgroup"; "jobs"]).
Proof. split; [reflexivity|]. vm_compute. auto. Qed.

End Omission.


(** ** Further properties of the compiler and of process invocation *)

Section Vector.

(** X1. For every context, nil or not, [CommandContext] returns a command
    and never panics; the argument vector of the command is [Path]
    followed by the vector of [BuildExecArgs], the command is bound to the
    context given, and the receiver is left as it was. *)
Theorem CommandContext_returns (Context : Type) (host : exec.Host)
    (Path : string) (ctx : option Context) (s : Sandbox) (path0 : string)
    (args : list string) :
  exists c,
    runState (CommandContext host Path ctx path0 args) s = (exec.Returns c, s)
    /\ exec.Args c = Path :: execArgsOf s path0 args
    /\ exec.ctx c = ctx.
Proof.
  unfold CommandContext, execArgsOf, evalState.
  cbn [bind Monad_state runState]. rewrite BuildExecArgs_run. cbn [fst].
  destruct ctx as [c|]; eexists; (split; [reflexivity|]);
    cbn [exec.Args exec.ctx]; split;
    first [apply Args_newCmd | apply ctx_newCmd | reflexivity].
Qed.

Lemma length_flat_map_const {A : Type} (f : A -> list string) (k : nat) (l : list A) :
  (forall x, length (f x) = k) -> length (flat_map f l) = k * length l.
Proof.
  intros Hk. induction l as [|x l IH]; cbn [flat_map length]; [lia|].
  rewrite length_app, Hk, IH. lia.
Qed.

Lemma length_fieldTokens s f :
  length (fieldTokens s f) = if isSet s f then 2 else 0.
Proof.
  destruct f; cbn [fieldTokens isSet]; unfold optionTokens, memLimitTokens;
    first [ destruct (string_dec _ "") as [E|E];
            [rewrite E; reflexivity
            | match goal with |- context [nonempty ?v] => destruct v end;
              [contradiction|reflexivity] ]
          | destruct (N.eq_dec _ 0) as [E|E];
            [rewrite E; reflexivity
            | destruct (N.eqb_spec (memLimit s) 0); [contradiction|reflexivity] ] ].
Qed.

Lemma length_fields s (fs : list optField) :
  length (flat_map (fieldTokens s) fs) = 2 * length (filter (isSet s) fs).
Proof.
  induction fs as [|f fs IH]; [reflexivity|].
  cbn [flat_map filter]. rewrite length_app, IH, length_fieldTokens.
  destruct (isSet s f); cbn [length]; lia.
Qed.

Lemma compiled_optionPart s path0 args :
  compiled s path0 args = optionPart s ++ "--" :: path0 :: args.
Proof.
  unfold compiled, optionPart, optFields, requestTokens.
  cbn [flat_map fieldTokens].
  rewrite List.app_nil_r, <- !List.app_assoc. reflexivity.
Qed.

(** X2. The size of the vector: the root path, the separator and the
    program path, three tokens per file and per mounted directory, two
    per environment entry (empty strings included: list entries are never
    skipped), one for [noNewNet], two per optional field that passes its
    guard, and the program arguments. *)
Theorem vector_length (s : Sandbox) (path0 : string) (args : list string) :
  length (execArgsOf s path0 args)
  = 3 + 3 * length (files s) + 3 * length (mountDirs s) + 2 * length (env s)
    + (if noNewNet s then 1 else 0)
    + 2 * length (filter (isSet s) optFields)
    + length args.
Proof.
  rewrite execArgsOf_compiled, compiled_optionPart.
  unfold optionPart, listTokens.
  rewrite !length_app, length_fields.
  rewrite (length_flat_map_const fileTokens 3) by reflexivity.
  rewrite (length_flat_map_const mountDirTokens 3) by reflexivity.
  rewrite (length_flat_map_const envTokens 2) by reflexivity.
  destruct (noNewNet s); cbn [noNewNetTokens length]; lia.
Qed.

(** X3. The request only fills the end of the vector: the vector is the
    option part of the configuration, which no request changes, then the
    separator, the program path and the arguments as given; arguments
    added to a request are added at the end of the vector. *)
Theorem request_at_end (s : Sandbox) (path0 : string) (args more : list string) :
  firstn (length (optionPart s)) (execArgsOf s path0 args) = optionPart s
  /\ skipn (length (optionPart s)) (execArgsOf s path0 args)
     = "--" :: path0 :: args
  /\ execArgsOf s path0 (args ++ more) = execArgsOf s path0 args ++ more.
Proof.
  rewrite !execArgsOf_compiled, !compiled_optionPart. repeat split.
  - rewrite firstn_app, firstn_all.
    replace (length (optionPart s) - length (optionPart s)) with 0 by lia.
    cbn [firstn]. now rewrite List.app_nil_r.
  - rewrite skipn_app, skipn_all.
    replace (length (optionPart s) - length (optionPart s)) with 0 by lia.
    reflexivity.
  - rewrite <- List.app_assoc. reflexivity.
Qed.

(** X4. The vector holds exactly one separator more than the strings of
    the caller do: the compiler writes one, and never a second. *)
Theorem separator_count (s : Sandbox) (path0 : string) (args : list string) :
  separators (execArgsOf s path0 args)
  = S (separators (callerStrings s path0 args)).
Proof. rewrite execArgsOf_compiled. apply separators_compiled. Qed.

End Vector.

(** ** Further properties of the builder *)

Section Chains.

Lemma Sandbox_ext (a b : Sandbox) :
  path a = path b -> files a = files b -> mountDirs a = mountDirs b ->
  env a = env b -> scalars a = scalars b -> a = b.
Proof.
  destruct a, b. unfold scalars. cbn.
  intros -> -> -> -> E. injection E as -> -> -> -> -> ->. reflexivity.
Qed.

(** X5. Only the order among the calls of one method counts: two call
    sequences that make the same calls of each builder method, interleaved
    differently, leave the same [Sandbox], and so compile to the same
    vector for every request. *)
Theorem call_order_between_methods (s : Sandbox) (cs cs' : list Call) :
  sameCalls cs cs' ->
  configured cs s = configured cs' s
  /\ forall path0 args,
       execArgsOf (configured cs s) path0 args
       = execArgsOf (configured cs' s) path0 args.
Proof.
  intros (Hf & Hm & He & Hn & Hg & Hc & Hl & Hu & Hx).
  assert (E : configured cs s = configured cs' s).
  { apply Sandbox_ext.
    - now rewrite !path_configured.
    - now rewrite !files_configured, Hf.
    - now rewrite !mountDirs_configured, Hm.
    - now rewrite !env_configured, He.
    - unfold scalars.
      rewrite !noNewNet_configured, !cgroup_configured, !cpuSet_configured,
        !memLimit_configured, !saveUsageStat_configured, !execDir_configured.
      now rewrite Hn, Hg, Hc, Hl, Hu, Hx. }
  split; [exact E|]. intros path0 args. now rewrite E.
Qed.

Lemma call_order_between_methods_witness :
  configured [CallSetCGroup "g"; CallAddEnv "A=1"; CallAddFile "/a" "/b" true;
              CallAddEnv "B=2"] (New "/x")
  = configured [CallAddFile "/a" "/b" true; CallAddEnv "A=1"; CallAddEnv "B=2";
                CallSetCGroup "g"] (New "/x").
Proof.
  refine (proj1 (call_order_between_methods (New "/x") _ _ _)).
  repeat split.
Defined.

(** X6. No builder call changes the root path: after any chain the
    receiver has the path it had, and the vector of a configuration made
    with [New] always starts with the path given to [New], whatever was
    called since. *)
Theorem root_path_fixed (cs : list Call) (s : Sandbox) (root path0 : string)
    (args : list string) :
  path (configured cs s) = path s
  /\ hd_error (execArgsOf (configured cs (New root)) path0 args) = Some root.
Proof.
  split; [apply path_configured|].
  rewrite execArgsOf_compiled. unfold compiled, listTokens.
  cbn [List.app hd_error]. now rewrite path_configured.
Qed.

(** X7. A list entry added to a configuration lands at the end of its own
    group of the vector, not at the end of the vector: the tokens of
    [AddFile] go after those of the files already there and before the
    mounted directories, those of [MountDir] before the environment, those
    of [AddEnv] before [--no_new_net] and the optional fields; no other
    token changes. *)
Theorem list_entry_position (s : Sandbox) (path0 : string) (args : list string)
    (a b e : string) (w : bool) :
  let F := flat_map fileTokens (files s) in
  let M := flat_map mountDirTokens (mountDirs s) in
  let E := flat_map envTokens (env s) in
  let R := noNewNetTokens (noNewNet s) ++ flat_map (fieldTokens s) optFields
           ++ "--" :: path0 :: args in
  execArgsOf s path0 args = [path s] ++ F ++ M ++ E ++ R
  /\ execArgsOf (execState (AddFile a b w) s) path0 args
     = [path s] ++ F
       ++ [if w then "--add_elf_file" else "--add_file"; a; b] ++ M ++ E ++ R
  /\ execArgsOf (execState (MountDir a b) s) path0 args
     = [path s] ++ F ++ M ++ ["--mount_dir"; a; b] ++ E ++ R
  /\ execArgsOf (execState (AddEnv e) s) path0 args
     = [path s] ++ F ++ M ++ E ++ ["--env"; e] ++ R.
Proof.
  cbv zeta. rewrite !execArgsOf_compiled, !compiled_optionPart.
  unfold optionPart, listTokens.
  cbn [execState runState AddFile MountDir AddEnv assign gets bind ret get put
       Monad_state MonadState_state snd fst with_files with_mountDirs with_env
       path files mountDirs env noNewNet fieldTokens flat_map optFields
       cgroup cpuSet memLimit saveUsageStat execDir].
  rewrite !flat_map_app. cbn [flat_map fileTokens mountDirTokens envTokens
                              file.withLibs file.src file.dst
                              mountDir.src mountDir.dst].
  rewrite ?List.app_nil_r, <- !List.app_assoc.
  repeat split; reflexivity.
Qed.

End Chains.

(** ** Further properties of the tokens *)

Section Reading.

Lemma readDecimal_decimal n : readDecimal (decimal n) = Some n.
Proof.
  unfold readDecimal, decimal. rewrite NilEmpty.usu. cbn [option_map].
  now rewrite DecimalN.Unsigned.of_to.
Qed.

(** X8. A memory limit other than zero is written so that it can be read
    back: the token after [--mem_limit] is a decimal numeral whose value
    is exactly [memLimit]. *)
Theorem mem_limit_reads_back (s : Sandbox) (path0 : string) (args : list string) :
  memLimit s <> 0%N ->
  execArgsOf s path0 args
  = beforeField FmemLimit s
    ++ ["--mem_limit"; strconv.FormatUint (memLimit s) 10]
    ++ afterField FmemLimit s path0 args
  /\ readDecimal (strconv.FormatUint (memLimit s) 10) = Some (memLimit s).
Proof.
  intros Hn. split.
  - rewrite execArgsOf_compiled, (compiled_at_field FmemLimit).
    rewrite (fieldTokens_set FmemLimit s Hn). cbn [flagOf rendered].
    now rewrite FormatUint_decimal.
  - rewrite FormatUint_decimal. apply readDecimal_decimal.
Qed.

Lemma mem_limit_reads_back_witness :
  execArgsOf (with_memLimit 536870912 (New "/x")) "echo" []
  = ["/x"; "--mem_limit"; "536870912"; "--"; "echo"]
  /\ readDecimal "536870912" = Some 536870912%N.
Proof.
  apply (mem_limit_reads_back (with_memLimit 536870912 (New "/x")) "echo" []).
  discriminate.
Defined.

(** X9. The compiler makes up no token: every token of the vector is a
    string the caller supplied, one of the ten flags or the separator the
    compiler writes, or the decimal numeral of a non-zero [memLimit]. *)
Theorem tokens_accounted_for (t : string) (s : Sandbox) (path0 : string)
    (args : list string) :
  In t (execArgsOf s path0 args) ->
  In t (callerStrings s path0 args)
  \/ In t compilerTokens
  \/ (memLimit s <> 0%N /\ t = strconv.FormatUint (memLimit s) 10).
Proof.
  rewrite execArgsOf_compiled. intros H.
  destruct (token_origin _ _ _ _ H) as [Hc|[Hf|(f & Hd & [Hfl|Hr])]].
  - now left.
  - right; left. unfold compilerTokens. apply in_or_app. now left.
  - right; left. unfold compilerTokens. apply in_or_app. right.
    subst t. apply in_map. destruct f; cbn; auto 6.
  - destruct f;
      try (left; rewrite Hr; apply rendered_caller; discriminate).
    right; right. split; [exact Hd|]. now rewrite FormatUint_decimal.
Qed.

Lemma tokens_accounted_for_witness :
  In "--env" (callerStrings (with_env ["A=1"] (New "/x")) "echo" [])
  \/ In "--env" compilerTokens
  \/ (memLimit (with_env ["A=1"] (New "/x")) <> 0%N
      /\ "--env" = strconv.FormatUint (memLimit (with_env ["A=1"] (New "/x"))) 10).
Proof.
  apply (tokens_accounted_for "--env" (with_env ["A=1"] (New "/x")) "echo" []).
  vm_compute. auto.
Defined.

Lemma in_fileTokens_values t fs :
  In t (flat_map (fun f => [file.src f; file.dst f]) fs) ->
  In t (flat_map fileTokens fs).
Proof.
  rewrite !in_flat_map. intros (f & Hf & Ht). exists f. split; [exact Hf|].
  unfold fileTokens. now right.
Qed.

Lemma in_mountDirTokens_values t ds :
  In t (flat_map (fun d => [mountDir.src d; mountDir.dst d]) ds) ->
  In t (flat_map mountDirTokens ds).
Proof.
  rewrite !in_flat_map. intros (d & Hd & Ht). exists d. split; [exact Hd|].
  unfold mountDirTokens. now right.
Qed.

Lemma in_envTokens_values t es : In t es -> In t (flat_map envTokens es).
Proof.
  rewrite in_flat_map. intros H. exists t. split; [exact H|].
  unfold envTokens. right. now left.
Qed.

Lemma in_optionTokens_value flag v : v <> "" -> In v (optionTokens flag v).
Proof.
  intros Hv. unfold optionTokens. destruct (string_dec v ""); [contradiction|].
  right. now left.
Qed.

Lemma Subseq_refl l : Subseq l l.
Proof. induction l; constructor; assumption. Qed.

Lemma Subseq_nil l : Subseq [] l.
Proof. induction l; constructor; assumption. Qed.

Lemma Subseq_app l1 m1 l2 m2 :
  Subseq l1 m1 -> Subseq l2 m2 -> Subseq (l1 ++ l2) (m1 ++ m2).
Proof.
  intros H1 H2. induction H1; cbn [List.app]; try (constructor; assumption).
  assumption.
Qed.

Lemma Subseq_In l m t : Subseq l m -> In t l -> In t m.
Proof.
  induction 1 as [|x l m _ IH|x l m _ IH]; intros Hin.
  - destruct Hin.
  - destruct Hin as [->|Hin]; [now left | right; auto].
  - right; auto.
Qed.

Lemma Subseq_fileTokens fs :
  Subseq (flat_map (fun f => [file.src f; file.dst f]) fs)
         (flat_map fileTokens fs).
Proof.
  induction fs as [|f fs IH]; [constructor|].
  cbn [flat_map]. apply Subseq_app; [|exact IH].
  unfold fileTokens. apply Subseq_skip, Subseq_refl.
Qed.

Lemma Subseq_mountDirTokens ds :
  Subseq (flat_map (fun d => [mountDir.src d; mountDir.dst d]) ds)
         (flat_map mountDirTokens ds).
Proof.
  induction ds as [|d ds IH]; [constructor|].
  cbn [flat_map]. apply Subseq_app; [|exact IH].
  unfold mountDirTokens. apply Subseq_skip, Subseq_refl.
Qed.

Lemma Subseq_envTokens es : Subseq es (flat_map envTokens es).
Proof.
  induction es as [|e es IH]; [constructor|].
  cbn [flat_map]. change (e :: es) with ([e] ++ es).
  apply Subseq_app; [|exact IH].
  unfold envTokens. apply Subseq_skip, Subseq_refl.
Qed.

Lemma Subseq_optionTokens flag v : Subseq (optionalValue v) (optionTokens flag v).
Proof.
  unfold optionalValue, optionTokens.
  destruct v; cbn; [constructor|]. apply Subseq_skip, Subseq_refl.
Qed.

(** X10. The compiler drops no string of the caller but the empty values
    of the optional fields: the root path, the sources and destinations,
    the environment entries, the non-empty string fields, the program
    path and the arguments are all in the vector, in this order and as
    often as they were given, empty list entries and empty arguments
    included. *)
Theorem caller_strings_passed_on (s : Sandbox) (path0 : string)
    (args : list string) :
  Subseq (keptStrings s path0 args) (execArgsOf s path0 args).
Proof.
  rewrite execArgsOf_compiled.
  unfold compiled, listTokens, requestTokens. rewrite <- !List.app_assoc.
  change (keptStrings s path0 args)
    with ([path s]
          ++ flat_map (fun f => [file.src f; file.dst f]) (files s)
          ++ flat_map (fun d => [mountDir.src d; mountDir.dst d]) (mountDirs s)
          ++ env s ++ []
          ++ optionalValue (cgroup s) ++ optionalValue (cpuSet s) ++ []
          ++ optionalValue (saveUsageStat s) ++ optionalValue (execDir s)
          ++ [] ++ [path0] ++ args).
  apply Subseq_app; [apply Subseq_refl|].
  apply Subseq_app; [apply Subseq_fileTokens|].
  apply Subseq_app; [apply Subseq_mountDirTokens|].
  apply Subseq_app; [apply Subseq_envTokens|].
  apply Subseq_app; [apply Subseq_nil|].
  apply Subseq_app; [apply Subseq_optionTokens|].
  apply Subseq_app; [apply Subseq_optionTokens|].
  apply Subseq_app; [apply Subseq_nil|].
  apply Subseq_app; [apply Subseq_optionTokens|].
  apply Subseq_app; [apply Subseq_optionTokens|].
  apply Subseq_app; [apply Subseq_nil|].
  apply Subseq_refl.
Qed.

End Reading.

(** ** The vector determines the configuration and the request *)

Section Decoding.

Lemma wellFormed_not_separator f : arity f <> None -> String.eqb f "--" = false.
Proof.
  intros H. destruct (String.eqb_spec f "--") as [->|]; [|reflexivity].
  now elim H.
Qed.

Lemma lex_items its rest :
  Forall wellFormed its ->
  lex (flat_map itemTokens its ++ "--" :: rest) = Some (its, rest).
Proof.
  induction 1 as [|[f vs] its (Hs & Ha & Hl) _ IH]; [reflexivity|].
  cbn [fst snd] in Hs, Ha, Hl.
  assert (Hf : String.eqb f "--" = false)
    by (apply wellFormed_not_separator; congruence).
  cbn [flat_map]. unfold itemTokens at 1. cbn [fst snd].
  destruct vs as [|v [|w [|x vs]]]; cbn [length] in Ha, Hl; [ | | |lia];
    cbn [List.app lex]; rewrite Hf, Ha; rewrite IH; reflexivity.
Qed.

Lemma flat_map_itemTokens_map {A : Type} (g : A -> item)
    (t : A -> list string) (l : list A) :
  (forall x, itemTokens (g x) = t x) ->
  flat_map itemTokens (map g l) = flat_map t l.
Proof.
  intros H. induction l as [|x l IH]; [reflexivity|].
  cbn [map flat_map]. now rewrite H, IH.
Qed.

Lemma fieldTokens_isSet s f :
  fieldTokens s f = if isSet s f then [flagOf f; rendered f s] else [].
Proof.
  destruct f; cbn [fieldTokens isSet flagOf rendered];
    unfold optionTokens, memLimitTokens;
    first [ destruct (string_dec _ "") as [E|E];
            [rewrite E; reflexivity
            | match goal with |- context [nonempty ?v] => destruct v end;
              [contradiction|reflexivity] ]
          | destruct (N.eq_dec _ 0) as [E|E];
            [rewrite E; reflexivity
            | destruct (N.eqb_spec (memLimit s) 0); [contradiction|reflexivity] ] ].
Qed.

Lemma flat_map_itemTokens_fields s (fs : list optField) :
  flat_map itemTokens (flat_map (fieldItems s) fs) = flat_map (fieldTokens s) fs.
Proof.
  induction fs as [|f fs IH]; [reflexivity|].
  cbn [flat_map]. rewrite flat_map_app, IH, fieldTokens_isSet. f_equal.
  unfold fieldItems. destruct (isSet s f); reflexivity.
Qed.

Lemma optionPart_items s :
  optionPart s = path s :: flat_map itemTokens (items s).
Proof.
  unfold optionPart, listTokens, items. cbn [List.app]. f_equal.
  rewrite !flat_map_app.
  rewrite (flat_map_itemTokens_map fileItem fileTokens) by reflexivity.
  rewrite (flat_map_itemTokens_map mountDirItem mountDirTokens) by reflexivity.
  rewrite (flat_map_itemTokens_map envItem envTokens) by reflexivity.
  rewrite flat_map_itemTokens_fields, <- !List.app_assoc.
  now destruct (noNewNet s).
Qed.

Lemma wellFormed_items s : Forall wellFormed (items s).
Proof.
  unfold items. rewrite !Forall_app. repeat split.
  - apply Forall_forall. intros it Hin. apply in_map_iff in Hin.
    destruct Hin as (f & <- & _). unfold fileItem.
    destruct (file.withLibs f); repeat split; cbn; (discriminate || lia).
  - apply Forall_forall. intros it Hin. apply in_map_iff in Hin.
    destruct Hin as (d & <- & _). repeat split; cbn; (discriminate || lia).
  - apply Forall_forall. intros it Hin. apply in_map_iff in Hin.
    destruct Hin as (e & <- & _). repeat split; cbn; (discriminate || lia).
  - destruct (noNewNet s); constructor; [|constructor].
    repeat split; cbn; (discriminate || lia).
  - apply Forall_forall. intros it Hin. apply in_flat_map in Hin.
    destruct Hin as (f & _ & Hin). unfold fieldItems in Hin.
    destruct (isSet s f); [|destruct Hin].
    destruct Hin as [<-|[]].
    destruct f; repeat split; cbn; (discriminate || lia).
Qed.

(** Reading the vector of a configuration gives its items and the
    request back. *)
Lemma lex_compiled s path0 args :
  lex (tl (compiled s path0 args)) = Some (items s, path0 :: args).
Proof.
  rewrite compiled_optionPart, optionPart_items. cbn [List.app tl].
  apply lex_items, wellFormed_items.
Qed.

Lemma filter_map_all {A : Type} (P : item -> bool) (g : A -> item) (l : list A) :
  (forall x, P (g x) = true) -> filter P (map g l) = map g l.
Proof.
  intros H. induction l as [|x l IH]; [reflexivity|].
  cbn [map filter]. now rewrite H, IH.
Qed.

Lemma filter_map_none {A : Type} (P : item -> bool) (g : A -> item) (l : list A) :
  (forall x, P (g x) = false) -> filter P (map g l) = [].
Proof.
  intros H. induction l as [|x l IH]; [reflexivity|].
  cbn [map filter]. now rewrite H, IH.
Qed.

Ltac by_flag :=
  let x := fresh "x" in
  intros x; cbn; try destruct (file.withLibs x); reflexivity.

Ltac pick_segments s :=
  unfold pick, items, optFields, fieldItems, noNewNetItems;
  rewrite !filter_app;
  do 3 first [ rewrite filter_map_all by by_flag
             | rewrite filter_map_none by by_flag ];
  cbn [flat_map];
  destruct (noNewNet s), (isSet s Fcgroup), (isSet s FcpuSet),
    (isSet s FmemLimit), (isSet s FsaveUsageStat), (isSet s FexecDir);
  cbn [filter fst flagOf List.app isFileFlag String.eqb Ascii.eqb Bool.eqb orb];
  rewrite ?List.app_nil_r; reflexivity.

Lemma pick_files s : pick isFileFlag (items s) = map fileItem (files s).
Proof. pick_segments s. Qed.

Lemma pick_mountDirs s :
  pick (fun f => String.eqb f "--mount_dir") (items s)
  = map mountDirItem (mountDirs s).
Proof. pick_segments s. Qed.

Lemma pick_env s :
  pick (fun f => String.eqb f "--env") (items s) = map envItem (env s).
Proof. pick_segments s. Qed.

Lemma pick_noNewNet s :
  pick (fun f => String.eqb f "--no_new_net") (items s)
  = noNewNetItems (noNewNet s).
Proof. pick_segments s. Qed.

Lemma pick_field s f :
  pick (fun g => String.eqb g (flagOf f)) (items s) = fieldItems s f.
Proof. destruct f; cbn [flagOf]; pick_segments s. Qed.

Lemma map_injective {A B : Type} (g : A -> B) :
  (forall x y, g x = g y -> x = y) ->
  forall l l', map g l = map g l' -> l = l'.
Proof.
  intros Hg. induction l as [|x l IH]; intros [|y l'] H;
    try discriminate H; [reflexivity|].
  cbn [map] in H. injection H as Hx Hl.
  now rewrite (Hg _ _ Hx), (IH _ Hl).
Qed.

Lemma fileItem_injective x y : fileItem x = fileItem y -> x = y.
Proof.
  destruct x as [a b w], y as [a' b' w']. unfold fileItem. cbn.
  destruct w, w'; intros H; try discriminate H;
    injection H as <- <-; reflexivity.
Qed.

Lemma mountDirItem_injective x y : mountDirItem x = mountDirItem y -> x = y.
Proof.
  destruct x, y. unfold mountDirItem. cbn. now intros [= <- <-].
Qed.

Lemma envItem_injective (x y : string) : envItem x = envItem y -> x = y.
Proof. unfold envItem. now intros [= <-]. Qed.

Lemma decimal_injective n m : decimal n = decimal m -> n = m.
Proof.
  intros H. apply (f_equal readDecimal) in H.
  rewrite !readDecimal_decimal in H. now injection H.
Qed.

Lemma nonempty_false v : nonempty v = false -> v = "".
Proof. destruct v; [reflexivity|discriminate]. Qed.

Lemma fieldItems_injective s s' :
  (forall f, fieldItems s f = fieldItems s' f) ->
  cgroup s = cgroup s' /\ cpuSet s = cpuSet s' /\ memLimit s = memLimit s'
  /\ saveUsageStat s = saveUsageStat s' /\ execDir s = execDir s'.
Proof.
  intros H.
  pose proof (H Fcgroup) as Hg. pose proof (H FcpuSet) as Hc.
  pose proof (H FmemLimit) as Hm. pose proof (H FsaveUsageStat) as Hu.
  pose proof (H FexecDir) as He.
  unfold fieldItems in Hg, Hc, Hm, Hu, He. cbn [isSet flagOf rendered] in *.
  repeat split.
  - destruct (nonempty (cgroup s)) eqn:E, (nonempty (cgroup s')) eqn:E';
      try discriminate; [now injection Hg|].
    now rewrite (nonempty_false _ E), (nonempty_false _ E').
  - destruct (nonempty (cpuSet s)) eqn:E, (nonempty (cpuSet s')) eqn:E';
      try discriminate; [now injection Hc|].
    now rewrite (nonempty_false _ E), (nonempty_false _ E').
  - destruct (N.eqb_spec (memLimit s) 0) as [E|E],
             (N.eqb_spec (memLimit s') 0) as [E'|E'];
      cbn [negb] in Hm; try discriminate; [congruence|].
    injection Hm as Hm. now apply decimal_injective.
  - destruct (nonempty (saveUsageStat s)) eqn:E,
             (nonempty (saveUsageStat s')) eqn:E';
      try discriminate; [now injection Hu|].
    now rewrite (nonempty_false _ E), (nonempty_false _ E').
  - destruct (nonempty (execDir s)) eqn:E, (nonempty (execDir s')) eqn:E';
      try discriminate; [now injection He|].
    now rewrite (nonempty_false _ E), (nonempty_false _ E').
Qed.

Lemma items_injective s s' :
  items s = items s' ->
  files s = files s' /\ mountDirs s = mountDirs s' /\ env s = env s'
  /\ scalars s = scalars s'.
Proof.
  intros H. repeat split.
  - apply (map_injective fileItem fileItem_injective).
    now rewrite <- !pick_files, H.
  - apply (map_injective mountDirItem mountDirItem_injective).
    now rewrite <- !pick_mountDirs, H.
  - apply (map_injective envItem envItem_injective).
    now rewrite <- !pick_env, H.
  - assert (Hn : noNewNet s = noNewNet s').
    { pose proof (pick_noNewNet s) as P. rewrite H, pick_noNewNet in P.
      destruct (noNewNet s), (noNewNet s'); try reflexivity; discriminate P. }
    destruct (fieldItems_injective s s') as (Hg & Hc & Hm & Hu & He).
    { intros f. now rewrite <- !pick_field, H. }
    unfold scalars. now rewrite Hn, Hg, Hc, Hm, Hu, He.
Qed.

(** X11. The vector loses nothing: two calls of [BuildExecArgs] return
    the same vector only for the same configuration, the same program
    path and the same arguments.  Each flag is followed by a fixed number
    of values, so the vector can be read back from left to right. *)
Theorem vector_determines_configuration (s s' : Sandbox)
    (path0 path0' : string) (args args' : list string) :
  execArgsOf s path0 args = execArgsOf s' path0' args' ->
  s = s' /\ path0 = path0' /\ args = args'.
Proof.
  rewrite !execArgsOf_compiled. intros H.
  assert (Hp : path s = path s').
  { apply (f_equal (@hd_error string)) in H.
    rewrite !compiled_optionPart, !optionPart_items in H.
    cbn [List.app hd_error] in H. now injection H. }
  apply (f_equal (fun v => lex (tl v))) in H. rewrite !lex_compiled in H.
  injection H as Hi Hq Ha.
  destruct (items_injective s s' Hi) as (Hf & Hm & He & Hs).
  repeat split; auto using Sandbox_ext.
Qed.

Lemma vector_determines_configuration_witness :
  with_env ["A=1"] (New "/x") = with_env ["A=1"] (New "/x")
  /\ "echo" = "echo" /\ ["hi"] = ["hi"].
Proof.
  apply (vector_determines_configuration
           (with_env ["A=1"] (New "/x")) (with_env ["A=1"] (New "/x"))
           "echo" "echo" ["hi"] ["hi"]).
  reflexivity.
Defined.

End Decoding.

(** ** Setting an optional field back to its zero value *)

Section Clearing.

(** X12. A setter called with the zero value (the empty string, or zero
    for [SetMemLimit]) takes the flag and the value of its field out of
    the vector again and changes no other token: the zero value cannot be
    passed to the tool, whatever the field held before. *)
Theorem zero_value_unsets (f : optField) (s : Sandbox) (path0 : string)
    (args : list string) :
  execArgsOf s path0 args
  = beforeField f s ++ fieldTokens s f ++ afterField f s path0 args
  /\ execArgsOf (execState (clear f) s) path0 args
     = beforeField f s ++ afterField f s path0 args.
Proof.
  rewrite !execArgsOf_compiled. split; [apply compiled_at_field|].
  rewrite (compiled_at_field f).
  destruct f; reflexivity.
Qed.

End Clearing.
